(** * nfd-worker: the feature aggregator, configuration decoding,
      connection manager and agent loop of pkg/nfd-worker/nfd-worker.go

    The Go code is embedded shallowly.  Go maps are [gmap]s; where the code
    ranges over a map whose visiting order can change the outcome, the map
    is given as the list of its entries in the order [range] visits them
    (Go leaves that order unspecified, so the theorems quantify over every
    enumeration with distinct keys).  Errors are their messages.  Packages
    the file imports (fmt, regexp, filepath, the Kubernetes validators,
    yaml, grpc, the feature sources) are collaborators: their operations
    are the fields of one interface, and every theorem holds for all
    implementations of it. *)

From Stdlib Require Import ZArith Ascii.
From stdpp Require Import base option list strings gmap fin_maps.

Local Open Scope Z_scope.

(** ** Go strings *)

Module strings.

(** [strings.Contains(s, string(c))] for a one-byte [c]. *)
Fixpoint Contains (s : string) (c : ascii) : bool :=
  match s with
  | EmptyString => false
  | String a s' => if decide (a = c) then true else Contains s' c
  end.

(** [strings.SplitN(s, string(sep), n)] for a one-byte separator and
    [n >= 0]: at most [n] pieces, the last one the unsplit remainder. *)
Fixpoint SplitN (s : string) (sep : ascii) (n : nat) {struct s} : list string :=
  match n with
  | O => []
  | S O => [s]
  | S (S _ as n') =>
      match s with
      | EmptyString => [EmptyString]
      | String a s' =>
          if decide (a = sep) then EmptyString :: SplitN s' sep n'
          else match SplitN s' sep n with
               | piece :: pieces => String a piece :: pieces
               | [] => [String a EmptyString]
               end
      end
  end.

End strings.

(** ** Collaborators *)

(** [error] values are represented by their message ([err.Error()]). *)
Definition error : Type := string.

Inductive result (A : Type) : Type :=
| Ok (a : A)
| Err (err : error).
Arguments Ok {A} a.
Arguments Err {A} err.

(** [type coreConfig struct] and [type NFDConfig struct]; the type of a
    source's configuration comes from the source packages. *)
Record coreConfig : Type := { NoPublish : bool }.

Record NFDConfig (Config : Type) : Type := {
  Core : coreConfig;
  Sources : gmap string Config;
}.
Arguments Core {Config} _.
Arguments Sources {Config} _.

(** What nfd-worker.go uses from the packages it imports. *)
Class Collaborators : Type := {
  (** fmt: a Go value of type [interface{}] and its [%v] rendering;
      [strconv.Quote], which is what [%q] prints. *)
  Value : Type;
  Sprintf_v : Value → string;
  Quote : string → string;
  (** the value a nil-pointer dereference panics with *)
  nilDereference : Value;
  (** k8s.io/apimachinery/pkg/util/validation: the list of complaints *)
  IsQualifiedName : string → list string;
  IsValidLabelValue : string → list string;
  (** regexp *)
  Regexp : Type;
  Compile : string → result Regexp;
  MatchString : Regexp → string → bool;
  (** path/filepath and strings *)
  Clean : string → string;
  TrimSpace : string → string;
  (** source.Config (an interface value, [nilConfig] when nil) and the
      state of the machine the sources inspect *)
  Config : Type;
  nilConfig : Config;
  Host : Type;
  (** encoding/json and sigs.k8s.io/yaml.  [Unmarshal_raw] is
      [yaml.Unmarshal] into a [map[string]json.RawMessage], the entries in
      the order [range] will visit them.  [Unmarshal_Config rawv v] is
      [yaml.Unmarshal(rawv, &v)] for [v] taken from the sources map: the
      value the map holds under that key afterwards (the decoder writes
      through the pointer inside [v], which the map entry shares) and the
      error.  [Unmarshal_NFDConfig] is [yaml.Unmarshal] into a
      [*NFDConfig]; it is given the [UnmarshalJSON] method of the sources
      section and returns the configuration as the call leaves it. *)
  RawMessage : Type;
  Unmarshal_raw : string → result (list (string * RawMessage));
  Unmarshal_Config : RawMessage → Config → Config * option error;
  Unmarshal_NFDConfig :
    (gmap string Config → string → gmap string Config * option error) →
    string → NFDConfig Config → NFDConfig Config * option error;
  (** crypto/tls, crypto/x509, google.golang.org/grpc *)
  Certificate : Type;
  CertPool : Type;
  ClientConn : Type;
  (** [version.Get()] and the NODE_NAME read at start-up *)
  version_Get : string;
  nodeName : string;
}.

(** ** Data model *)

(** [type Labels map[string]string] *)
Abbreviation Labels := (gmap string string).

(** The concrete types behind [source.FeatureSource] that [NewNfdWorker]
    registers; [getFeatureLabels] switches on the type. *)
Inductive SourceType : Type :=
| cpu | iommu | kernel | memory | network | pci | storage | system | usb
| custom | local | fake | panicfake.

Global Instance SourceType_eq_dec : EqDecision SourceType.
Proof. solve_decision. Defined.

Section Model.
Context {ext : Collaborators}.

(** How a call of [source.Discover()] ends.  [Returns] carries the
    feature map as [range] enumerates it, [Fails] the non-nil error,
    [Panics] the non-nil value the call panicked with, and [PanicsNil] is
    a [panic(nil)], which [recover()] reports as nil (the module is a
    [go 1.15] module). *)
Inductive Discovery : Type :=
| Returns (features : list (string * Value))
| Fails (err : error)
| Panics (r : Value)
| PanicsNil.

(** [source.FeatureSource]: the dynamic type, [Name()], [NewConfig()],
    the configuration last installed by [SetConfig] and [Discover()],
    which reads that configuration and the machine. *)
Record FeatureSource : Type := {
  type_of : SourceType;
  Name : string;
  NewConfig : Config;
  conf : Config;
  Discover : Config → Host → Discovery;
}.

Definition SetConfig (s : FeatureSource) (c : Config) : FeatureSource :=
  {| type_of := type_of s; Name := Name s; NewConfig := NewConfig s;
     conf := c; Discover := Discover s |}.

(** ** Feature aggregator *)

(** Lines 456-466: the label, the name handed to the validator and the
    name handed to the whitelist, for raw key [k]. *)
Definition labelNames (prefix k : string) : string * string * string :=
  let split := strings.SplitN k "/" 2 in
  let label := prefix +:+ (split !!! 0%nat) in
  let nameForValidation := "ns/" +:+ label in
  let nameForWhiteListing := label in
  if decide (length split = 2%nat)
  then (k, k, split !!! 1%nat)
  else (label, nameForValidation, nameForWhiteListing).

(** One pass through the body of the loop at line 452. *)
Inductive Iteration : Type :=
| Skip
| Store (label value : string)
| Raise (r : Value).

Definition iteration (prefix : string) (labelWhiteList : option Regexp)
    (k : string) (v : Value) : Iteration :=
  let '(label, nameForValidation, nameForWhiteListing) := labelNames prefix k in
  if decide (0 < length (IsQualifiedName nameForValidation))%nat then Skip else
  let value := Sprintf_v v in
  if decide (0 < length (IsValidLabelValue value))%nat then Skip else
  match labelWhiteList with
  | None => Raise nilDereference
  | Some re =>
      if negb (MatchString re nameForWhiteListing) then Skip
      else Store label value
  end.

(** The loop: the labels accumulated so far, and the panic that cut it
    short, if any. *)
Fixpoint rangeFeatures (prefix : string) (labelWhiteList : option Regexp)
    (features : list (string * Value)) (labels : Labels)
    : Labels * option Value :=
  match features with
  | [] => (labels, None)
  | (k, v) :: rest =>
      match iteration prefix labelWhiteList k v with
      | Skip => rangeFeatures prefix labelWhiteList rest labels
      | Store label value =>
          rangeFeatures prefix labelWhiteList rest (<[label := value]> labels)
      | Raise r => (labels, Some r)
      end
  end.

(** Lines 444-450. *)
Definition prefixOf (source : FeatureSource) : string :=
  match type_of source with
  | local => EmptyString
  | _ => Name source +:+ "-"
  end.

(** [getFeatureLabels]: the named results [(labels, err)]; [None] is
    Go's nil.  The deferred function sets [err] to [fmt.Errorf("%v", r)]
    when [recover()] gives a non-nil [r], and leaves [labels] as it
    stood; after a [panic(nil)] it changes nothing, so the results are
    those set before the call of [Discover]: the empty map and no
    error. *)
Definition getFeatureLabels (h : Host) (source : FeatureSource)
    (labelWhiteList : option Regexp) : option Labels * option error :=
  match Discover source (conf source) h with
  | Panics r => (Some ∅, Some (Sprintf_v r))
  | PanicsNil => (Some ∅, None)
  | Fails err => (None, Some err)
  | Returns features =>
      match rangeFeatures (prefixOf source) labelWhiteList features ∅ with
      | (labels, Some r) => (Some labels, Some (Sprintf_v r))
      | (labels, None) => (Some labels, None)
      end
  end.

(** The inner loop of [createFeatureLabels] (lines 419-423). *)
Definition mergeLabels (labelsFromSource labels : Labels) : Labels :=
  map_fold (λ name value acc, <[name := value]> acc) labels labelsFromSource.

(** [createFeatureLabels] *)
Definition createFeatureLabels (h : Host) (sources : list FeatureSource)
    (labelWhiteList : option Regexp) : Labels :=
  foldl (λ labels source,
           match getFeatureLabels h source labelWhiteList with
           | (_, Some err) => labels
           | (labelsFromSource, None) =>
               mergeLabels (default ∅ labelsFromSource) labels
           end)
        ∅ sources.

(** ** Decoding the sources section of a configuration document *)

(** The loop of [sourcesConfig.UnmarshalJSON] (lines 526-533) over the
    raw entries in visiting order.  [c] is pre-populated with one entry
    per active source; the first failing decode returns at once. *)
Fixpoint decodeSources (raw : list (string * RawMessage))
    (c : gmap string Config) : gmap string Config * option error :=
  match raw with
  | [] => (c, None)
  | (k, rawv) :: rest =>
      match c !! k with
      | Some v =>
          let '(v', err) := Unmarshal_Config rawv v in
          match err with
          | Some err =>
              (<[k := v']> c,
               Some ("failed to parse " +:+ Quote k +:+ " source config: " +:+ err))
          | None => decodeSources rest (<[k := v']> c)
          end
      | None => decodeSources rest c
      end
  end.

(** [func (c *sourcesConfig) UnmarshalJSON(data []byte) error] *)
Definition UnmarshalJSON (c : gmap string Config) (data : string)
    : gmap string Config * option error :=
  match Unmarshal_raw data with
  | Err err => (c, Some err)
  | Ok raw => decodeSources raw c
  end.

(** ** The worker *)

(** [type Args struct]; [SleepInterval] is a [time.Duration], a count of
    nanoseconds. *)
Record Args : Type := {
  LabelWhiteList : string;
  CaFile : string;
  CertFile : string;
  KeyFile : string;
  ConfigFile : string;
  Options : string;
  Oneshot : bool;
  Server : string;
  ServerNameOverride : string;
  SleepInterval : Z;
  Args_Sources : list string;
  Args_NoPublish : option bool;
}.

(** [time.Second] *)
Definition Second : Z := 1000000000.

(** [pb.LabelerClient] as made by [pb.NewLabelerClient(conn)]. *)
Record LabelerClient : Type := NewLabelerClient { cc : ClientConn }.

(** [type nfdWorker struct] *)
Record nfdWorker : Type := {
  args : Args;
  clientConn : option ClientConn;
  client : option LabelerClient;
  configFilePath : string;
  config : NFDConfig Config;
  sources : list FeatureSource;
  labelWhiteList : option Regexp;
}.

(** [tls.Config] as [connect] fills it, and [grpc.DialOption]. *)
Record tlsConfig : Type := {
  Certificates : list Certificate;
  RootCAs : CertPool;
  ServerName : string;
}.

Inductive DialOption : Type :=
| WithBlock
| WithInsecure
| WithTransportCredentials (creds : tlsConfig).

(** [pb.SetLabelsRequest] *)
Record SetLabelsRequest : Type := {
  Req_Labels : Labels;
  NfdVersion : string;
  NodeName : string;
}.

(** What is outside the process when the worker acts: the machine, the
    file system, the network and fsnotify.  [AppendCertsFromPEM] is the
    pool made by [x509.NewCertPool] after appending, [None] when it
    reports [!ok]; [addConfigWatch] is the outcome of the function of
    that name (the watched paths and the error). *)
Record World : Type := {
  host : Host;
  ReadFile : string → result string;
  LoadX509KeyPair : string → string → result Certificate;
  AppendCertsFromPEM : string → option CertPool;
  DialContext : string → list DialOption → result ClientConn;
  SetLabels : LabelerClient → SetLabelsRequest → option error;
  addConfigWatch : string → gset string * option error;
}.

(** The calls that reach the network, in the order they are made. *)
Inductive Call : Type :=
| Dial (target : string) (opts : list DialOption)
| Report (to : LabelerClient) (req : SetLabelsRequest)
| Close (conn : ClientConn).

Definition set_connection (w : nfdWorker) (conn : option ClientConn)
    (cl : option LabelerClient) : nfdWorker :=
  {| args := args w; clientConn := conn; client := cl;
     configFilePath := configFilePath w; config := config w;
     sources := sources w; labelWhiteList := labelWhiteList w |}.

(** Lines 320-345: the dial options, or the error that stops [connect]
    before it dials. *)
Definition dialOptions (σ : World) (a : Args) : result (list DialOption) :=
  if decide (CaFile a ≠ EmptyString ∨ CertFile a ≠ EmptyString
             ∨ KeyFile a ≠ EmptyString)
  then
    match LoadX509KeyPair σ (CertFile a) (KeyFile a) with
    | Err err => Err ("failed to load client certificate: " +:+ err)
    | Ok cert =>
        match ReadFile σ (CaFile a) with
        | Err err => Err ("failed to read root certificate file: " +:+ err)
        | Ok caCert =>
            match AppendCertsFromPEM σ caCert with
            | None => Err ("failed to add certificate from '" +:+ CaFile a +:+ "'")
            | Some caPool =>
                Ok [WithBlock;
                    WithTransportCredentials
                      {| Certificates := [cert]; RootCAs := caPool;
                         ServerName := ServerNameOverride a |}]
            end
        end
    end
  else Ok [WithBlock; WithInsecure].

(** [func (w *nfdWorker) connect() error] *)
Definition connect (σ : World) (w : nfdWorker)
    : nfdWorker * option error * list Call :=
  if NoPublish (Core (config w)) then (w, None, [])
  else
    match clientConn w with
    | Some _ => (w, Some "client connection already exists", [])
    | None =>
        match dialOptions σ (args w) with
        | Err err => (w, Some err, [])
        | Ok dialOpts =>
            match DialContext σ (Server (args w)) dialOpts with
            | Err err => (w, Some err, [Dial (Server (args w)) dialOpts])
            | Ok conn =>
                (set_connection w (Some conn) (Some (NewLabelerClient conn)),
                 None, [Dial (Server (args w)) dialOpts])
            end
        end
    end.

(** [func (w *nfdWorker) disconnect()] *)
Definition disconnect (w : nfdWorker) : nfdWorker * list Call :=
  (set_connection w None None,
   match clientConn w with
   | Some conn => [Close conn]
   | None => []
   end).

(** [func advertiseFeatureLabels(client, labels) error] *)
Definition advertiseFeatureLabels (σ : World) (cl : LabelerClient)
    (labels : Labels) : option error * list Call :=
  let labelReq := {| Req_Labels := labels; NfdVersion := version_Get;
                     NodeName := nodeName |} in
  (SetLabels σ cl labelReq, [Report cl labelReq]).

(** [func (w *nfdWorker) configure(filepath, overrides string)] *)
Definition configure (σ : World) (filepath overrides : string)
    (w : nfdWorker) : nfdWorker :=
  let c := {| Core := {| NoPublish := false |};
              Sources := foldl (λ m s, <[Name s := NewConfig s]> m) ∅ (sources w) |} in
  let c := match ReadFile σ filepath with
           | Err _ => c
           | Ok data => (Unmarshal_NFDConfig UnmarshalJSON data c).1
           end in
  let c := (Unmarshal_NFDConfig UnmarshalJSON overrides c).1 in
  let c := match Args_NoPublish (args w) with
           | Some b => {| Core := {| NoPublish := b |}; Sources := Sources c |}
           | None => c
           end in
  {| args := args w; clientConn := clientConn w; client := client w;
     configFilePath := configFilePath w; config := c;
     sources := (λ s, SetConfig s (default nilConfig (Sources c !! Name s)))
                  <$> sources w;
     labelWhiteList := labelWhiteList w |}.

(** ** The agent loop *)

(** The variables of [Run] that live across iterations.  A trigger is
    [Some d] while a [time.After(d)] channel is pending and [None] once
    it has been received from (or was never made): a drained or nil
    channel is never ready again. *)
Record loopState : Type := {
  self : nfdWorker;
  paths : gset string;
  labelTrigger : option Z;
  configTrigger : option Z;
}.

(** The four cases of the [select]. *)
Inductive Event : Type :=
| LabelTimer
| WatchEvent (name : string)
| WatchError (e : error)
| ConfigTimer.

Inductive Outcome : Type :=
| Running (st : loopState)
| Returned (w : nfdWorker) (err : option error).

(** A [return] from inside the loop: the deferred [w.disconnect()] runs. *)
Definition leave (w : nfdWorker) (err : option error) (calls : list Call)
    : Outcome * list Call :=
  (Returned (disconnect w).1 err, calls ++ (disconnect w).2).

(** Lines 243-261. *)
Definition onLabelTimer (σ : World) (st : loopState) : Outcome * list Call :=
  let w := self st in
  let labels := createFeatureLabels (host σ) (sources w) (labelWhiteList w) in
  let '(err, calls) :=
    match client w with
    | Some cl => advertiseFeatureLabels σ cl labels
    | None => (None, [])
    end in
  match err with
  | Some err => leave w (Some ("failed to advertise labels: " +:+ err)) calls
  | None =>
      if Oneshot (args w) then leave w None calls
      else if decide (0 < SleepInterval (args w))
      then (Running {| self := w; paths := paths st;
                       labelTrigger := Some (SleepInterval (args w));
                       configTrigger := configTrigger st |}, calls)
      else (Running {| self := w; paths := paths st;
                       labelTrigger := None;
                       configTrigger := configTrigger st |}, calls)
  end.

(** Lines 263-283. *)
Definition onWatchEvent (σ : World) (e_Name : string) (st : loopState)
    : Outcome * list Call :=
  let name := Clean e_Name in
  if decide (name ∈ paths st) then
    match addConfigWatch σ (configFilePath (self st)) with
    | (_, Some err) => leave (self st) (Some err) []
    | (paths', None) =>
        (Running {| self := self st; paths := paths';
                    labelTrigger := labelTrigger st;
                    configTrigger := Some Second |}, [])
    end
  else (Running st, []).

(** Lines 288-300. *)
Definition onConfigTimer (σ : World) (st : loopState) : Outcome * list Call :=
  let w := configure σ (configFilePath (self st)) (Options (args (self st)))
             (self st) in
  let '(w, err, calls) :=
    if NoPublish (Core (config w)) then ((disconnect w).1, None, (disconnect w).2)
    else match clientConn w with
         | None => connect σ w
         | Some _ => (w, None, [])
         end in
  match err with
  | Some err => leave w (Some err) calls
  | None =>
      (Running {| self := w; paths := paths st; labelTrigger := Some 0;
                  configTrigger := None |}, calls)
  end.

(** One iteration of the [for { select { ... } }]: [None] when the
    channel of the event is not ready. *)
Definition step (σ : World) (e : Event) (st : loopState)
    : option (Outcome * list Call) :=
  match e with
  | LabelTimer =>
      match labelTrigger st with
      | Some _ => Some (onLabelTimer σ st)
      | None => None
      end
  | WatchEvent name => Some (onWatchEvent σ name st)
  | WatchError _ => Some (Running st, [])
  | ConfigTimer =>
      match configTrigger st with
      | Some _ => Some (onConfigTimer σ st)
      | None => None
      end
  end.

(** Lines 225-240: everything before the loop. *)
Definition start (σ : World) (w : nfdWorker) : Outcome * list Call :=
  match addConfigWatch σ (configFilePath w) with
  | (_, Some err) => (Returned w (Some err), [])
  | (paths0, None) =>
      let w := configure σ (configFilePath w) (Options (args w)) w in
      match connect σ w with
      | (w, Some err, calls) =>
          (Returned w (Some ("failed to connect: " +:+ err)), calls)
      | (w, None, calls) =>
          (Running {| self := w; paths := paths0; labelTrigger := Some 0;
                      configTrigger := None |}, calls)
      end
  end.

(** The loop driven by a schedule: the events the [select] receives,
    each with the world at that moment.  [None] when the schedule asks
    for an event whose channel is not ready, or goes on after [Run] has
    returned. *)
Fixpoint loop (schedule : list (World * Event)) (st : loopState)
    : option (Outcome * list Call) :=
  match schedule with
  | [] => Some (Running st, [])
  | (σ, e) :: rest =>
      match step σ e st with
      | None => None
      | Some (Running st', calls) =>
          match loop rest st' with
          | Some (o, calls') => Some (o, calls ++ calls')
          | None => None
          end
      | Some (Returned w err, calls) =>
          match rest with
          | [] => Some (Returned w err, calls)
          | _ :: _ => None
          end
      end
  end.

(** [func (w *nfdWorker) Run() error], up to the end of the schedule. *)
Definition Run (σ : World) (schedule : list (World * Event)) (w : nfdWorker)
    : option (Outcome * list Call) :=
  match start σ w with
  | (Running st, calls) =>
      match loop schedule st with
      | Some (o, calls') => Some (o, calls ++ calls')
      | None => None
      end
  | (Returned w err, calls) =>
      match schedule with
      | [] => Some (Returned w err, calls)
      | _ :: _ => None
      end
  end.

(** ** Construction *)

Inductive Warning : Type :=
| TooShortSleepInterval (requested : Z)
| UnknownSources (names : gset string).

Definition with_SleepInterval (a : Args) (d : Z) : Args :=
  {| LabelWhiteList := LabelWhiteList a; CaFile := CaFile a;
     CertFile := CertFile a; KeyFile := KeyFile a;
     ConfigFile := ConfigFile a; Options := Options a;
     Oneshot := Oneshot a; Server := Server a;
     ServerNameOverride := ServerNameOverride a; SleepInterval := d;
     Args_Sources := Args_Sources a; Args_NoPublish := Args_NoPublish a |}.

(** Lines 148-166: the sources named in [--sources], in registry order,
    and the names that matched none. *)
Definition enabledSources (allSources : list FeatureSource)
    (requested : list string) : list FeatureSource * gset string :=
  let sourceWhiteList : gset string := list_to_set (TrimSpace <$> requested) in
  foldl (λ '(enabled, sourceWhiteList) s,
           if decide (Name s ∈ sourceWhiteList)
           then (enabled ++ [s], sourceWhiteList ∖ {[Name s]})
           else (enabled, sourceWhiteList))
        ([], sourceWhiteList) allSources.

(** [func NewNfdWorker(args Args) (NfdWorker, error)], with the warnings
    it prints.  [instance t] is the literal [&t.Source{}].  [nfd] takes
    its copy of [args] on the first line; the parameter [args] is a
    separate variable from then on. *)
Definition NewNfdWorker (instance : SourceType → FeatureSource) (args0 : Args)
    : nfdWorker * option error * list Warning :=
  let nfd_args := args0 in
  let nfd_configFilePath :=
    if decide (ConfigFile args0 ≠ EmptyString) then Clean (ConfigFile args0)
    else EmptyString in
  let nfd (srcs : list FeatureSource) (re : option Regexp) : nfdWorker :=
    {| args := nfd_args; clientConn := None; client := None;
       configFilePath := nfd_configFilePath;
       config := {| Core := {| NoPublish := false |}; Sources := ∅ |};
       sources := srcs; labelWhiteList := re |} in
  let '(args1, warn1) :=
    if decide (0 < SleepInterval args0 ∧ SleepInterval args0 < Second)
    then (with_SleepInterval args0 Second,
          [TooShortSleepInterval (SleepInterval args0)])
    else (args0, []) in
  if decide ((CertFile args1 ≠ EmptyString ∨ KeyFile args1 ≠ EmptyString
              ∨ CaFile args1 ≠ EmptyString) ∧ CertFile args1 = EmptyString)
  then (nfd [] None,
        Some "--cert-file needs to be specified alongside --key-file and --ca-file",
        warn1)
  else if decide ((CertFile args1 ≠ EmptyString ∨ KeyFile args1 ≠ EmptyString
              ∨ CaFile args1 ≠ EmptyString) ∧ KeyFile args1 = EmptyString)
  then (nfd [] None,
        Some "--key-file needs to be specified alongside --cert-file and --ca-file",
        warn1)
  else if decide ((CertFile args1 ≠ EmptyString ∨ KeyFile args1 ≠ EmptyString
              ∨ CaFile args1 ≠ EmptyString) ∧ CaFile args1 = EmptyString)
  then (nfd [] None,
        Some "--ca-file needs to be specified alongside --cert-file and --key-file",
        warn1)
  else
    let allSources :=
      instance <$> [cpu; iommu; kernel; memory; network; pci; storage;
                    system; usb; custom; local] in
    let '(srcs, warn2) :=
      if decide (length (Args_Sources args1) = 1%nat
                 ∧ Args_Sources args1 !!! 0%nat = "all")
      then (allSources, [])
      else
        let allSources := allSources ++ [instance fake] ++ [instance panicfake] in
        let '(enabled, unknown) := enabledSources allSources (Args_Sources args1) in
        (enabled, if decide (0 < size unknown)%nat then [UnknownSources unknown] else [])
    in
    match Compile (LabelWhiteList args1) with
    | Err err =>
        (nfd srcs None,
         Some ("error parsing label whitelist regex (" +:+ LabelWhiteList args1
               +:+ "): " +:+ err),
         warn1 ++ warn2)
    | Ok re => (nfd srcs (Some re), None, warn1 ++ warn2)
    end.

End Model.

(** ** A small implementation of the collaborators

    Used to run the model on concrete inputs.  Values are strings that
    print as themselves; a name is accepted when its name part is 1 to 63
    characters from [A-Za-z0-9-_.], a value when it is at most 63 such
    characters; a regular expression is a literal, matched anywhere in the
    subject, as [regexp] does for a pattern without metacharacters; a
    document is [k:v,k:v,...] with decimal digits as the only decodable
    section, preceded by [!] when it sets [core.noPublish]. *)
Module Example.

Definition nameChar (a : ascii) : bool :=
  let n := nat_of_ascii a in
  ((48 <=? n) && (n <=? 57) || (65 <=? n) && (n <=? 90)
   || (97 <=? n) && (n <=? 122) || (n =? 45) || (n =? 95) || (n =? 46))%nat.

Fixpoint allChars (p : ascii → bool) (s : string) : bool :=
  match s with
  | EmptyString => true
  | String a s' => p a && allChars p s'
  end.

Definition namePart (s : string) : string :=
  match strings.SplitN s "/" 2 with
  | [_; name] => name
  | _ => s
  end.

Definition qualifiedName (s : string) : list string :=
  let name := namePart s in
  if ((1 <=? String.length name) && (String.length name <=? 63)
      && allChars nameChar name)%nat
  then [] else ["name part must consist of alphanumeric characters"].

Definition validLabelValue (s : string) : list string :=
  if ((String.length s <=? 63) && allChars nameChar s)%nat
  then [] else ["a valid label must be 63 characters or less"].

Definition matchLiteral (re s : string) : bool :=
  match String.index 0 re s with
  | Some _ => true
  | None => false
  end.

Definition digit (a : ascii) : bool :=
  let n := nat_of_ascii a in ((48 <=? n) && (n <=? 57))%nat.

Definition parseEntries (data : string) : result (list (string * string)) :=
  Ok (omap (λ entry, match strings.SplitN entry ":" 2 with
                     | [k; v] => Some (k, v)
                     | _ => None
                     end)
           (strings.SplitN data "," 64)).

Definition decodeDigits (rawv v : string) : string * option error :=
  if allChars digit rawv then (rawv, None)
  else (v, Some "cannot unmarshal string into Go value").

Definition parseDocument
    (sourcesUnmarshalJSON : gmap string string → string → gmap string string * option error)
    (data : string) (c : NFDConfig string) : NFDConfig string * option error :=
  let '(core, rest) :=
    match data with
    | String "!" rest => ({| NoPublish := true |}, rest)
    | _ => (Core c, data)
    end in
  let '(srcs, err) := sourcesUnmarshalJSON (Sources c) rest in
  ({| Core := core; Sources := srcs |}, err).

Definition collaborators : Collaborators := {|
  Value := string;
  Sprintf_v := id;
  Quote := λ s, "'" +:+ s +:+ "'";
  nilDereference := "runtime error: invalid memory address or nil pointer dereference";
  IsQualifiedName := qualifiedName;
  IsValidLabelValue := validLabelValue;
  Regexp := string;
  Compile := Ok;
  MatchString := matchLiteral;
  Clean := id;
  TrimSpace := id;
  Config := string;
  nilConfig := EmptyString;
  Host := unit;
  RawMessage := string;
  Unmarshal_raw := parseEntries;
  Unmarshal_Config := decodeDigits;
  Unmarshal_NFDConfig := parseDocument;
  Certificate := string;
  CertPool := string;
  ClientConn := nat;
  version_Get := "v0.7.0";
  nodeName := "node-1";
|}.

(** A source of the given type and name whose discovery always ends the
    same way. *)
Definition source (t : SourceType) (name : string)
    (d : Discovery (ext := collaborators)) : FeatureSource (ext := collaborators) :=
  @Build_FeatureSource collaborators t name "0" "0" (λ _ _, d).

Definition returns (features : list (string * string)) : Discovery :=
  @Returns collaborators features.

(** The sources of the end-to-end scenario: [cpu] reports a model and
    the local source gives the same label another value. *)
Definition cpu_model : FeatureSource :=
  source cpu "cpu" (returns [("model", "x86_64")]).
Definition local_override : FeatureSource :=
  source local "local" (returns [("cpu-model", "arm64")]).

(** Sources that fail, and [cpu] with a namespaced key next to a plain
    one. *)
Definition crashing : FeatureSource :=
  source panicfake "panicfake" (@Panics collaborators "boom").
Definition failing : FeatureSource :=
  source fake "fake" (@Fails collaborators "no such device").
Definition crashing_with_nil : FeatureSource :=
  source panicfake "panicfake" (@PanicsNil collaborators).
Definition cpu_mixed : FeatureSource :=
  source cpu "cpu" (returns [("model", "x86_64"); ("example.com/rdt", "true")]).

(** Three sources that publish the same namespaced label. *)
Definition custom_x : FeatureSource :=
  source custom "custom" (returns [("example.com/x", "1")]).
Definition local_x : FeatureSource :=
  source local "local" (returns [("example.com/x", "2")]).
Definition fake_x : FeatureSource :=
  source fake "fake" (returns [("example.com/x", "3")]).

(** The registry: [cpu] and [local] as above, the others find nothing. *)
Definition registry (t : SourceType) : FeatureSource :=
  match t with
  | cpu => cpu_model
  | iommu => source iommu "iommu" (returns [])
  | kernel => source kernel "kernel" (returns [])
  | memory => source memory "memory" (returns [])
  | network => source network "network" (returns [])
  | pci => source pci "pci" (returns [])
  | storage => source storage "storage" (returns [])
  | system => source system "system" (returns [])
  | usb => source usb "usb" (returns [])
  | custom => source custom "custom" (returns [])
  | local => local_override
  | fake => source fake "fake" (returns [])
  | panicfake => crashing
  end.

(** No TLS material, no configuration file, all sources. *)
Definition arguments (oneshot : bool) (sleepInterval : Z)
    (noPublish : option bool) : Args :=
  {| LabelWhiteList := EmptyString; CaFile := EmptyString;
     CertFile := EmptyString; KeyFile := EmptyString;
     ConfigFile := EmptyString; Options := EmptyString; Oneshot := oneshot;
     Server := "nfd-master:8080"; ServerNameOverride := EmptyString;
     SleepInterval := sleepInterval; Args_Sources := ["all"];
     Args_NoPublish := noPublish |}.

(** A world in which every file reads as [file], there is no TLS
    material, dialing and reporting end as given, and only the
    configuration file itself can be watched. *)
Definition world (file : result string) (dial : result nat)
    (report : option error) : World :=
  @Build_World collaborators tt (λ _, file)
    (λ _ _, Err "no such file or directory") (λ _, None)
    (λ _ _, dial) (λ _ _, report) (λ path, ({[path]}, None)).

Definition no_file : result string := Err "no such file or directory".

Definition worker (oneshot : bool) (sleepInterval : Z)
    (noPublish : option bool) : nfdWorker :=
  (NewNfdWorker registry (arguments oneshot sleepInterval noPublish)).1.1.

(** The master answers; later a configuration file that sets
    [core.noPublish] appears. *)
Definition connected : World := world no_file (Ok 7%nat) None.
Definition dry_run_configured : World := world (Ok "!") (Ok 8%nat) None.

(** A labeling cycle, a change of the configuration file, and the
    reconfiguration after the debounce. *)
Definition reconfiguration : list (World * Event) :=
  [(connected, LabelTimer); (connected, WatchEvent EmptyString);
   (dry_run_configured, ConfigTimer)].

(** The loop as [Run] enters it in the world [connected], for a worker
    that re-labels every minute: configured, connected to the master and
    watching its (empty) configuration path. *)
Definition entered : loopState :=
  {| self := (connect connected
                (configure connected EmptyString EmptyString
                   (worker false (60 * Second) None))).1.1;
     paths := {[EmptyString]};
     labelTrigger := Some 0; configTrigger := None |}.

(** The loop of a worker that does not re-label by itself, after its
    first labeling cycle and a change of the configuration file: the
    debounce timer is pending. *)
Definition changed : loopState :=
  {| self := (connect connected
                (configure connected EmptyString EmptyString
                   (worker false 0 None))).1.1;
     paths := {[EmptyString]};
     labelTrigger := None; configTrigger := Some Second |}.

End Example.

(** ** Four readings the code does not satisfy *)

Section Readings.
Context {ext : Collaborators}.

(** A source whose discovery returns an error or panics makes
    [getFeatureLabels] return an error. *)
Definition every_failure_becomes_error (h : Host) (wl : option Regexp)
    (source : FeatureSource) : Prop :=
  (∀ features, Discover source (conf source) h ≠ Returns features) →
  ∃ err, (getFeatureLabels h source wl).2 = Some err.

(** Of any two sources that return a label of the same name, the value
    of the later one is the value in the aggregated set. *)
Definition every_later_source_wins (h : Host) (wl : option Regexp)
    (sources : list FeatureSource) : Prop :=
  ∀ pre A mid B post la lb x va vb,
    sources = pre ++ A :: mid ++ B :: post →
    getFeatureLabels h A wl = (Some la, None) → la !! x = Some va →
    getFeatureLabels h B wl = (Some lb, None) → lb !! x = Some vb →
    createFeatureLabels h sources wl !! x = Some vb.

(** The labels missing from the result of a source are exactly those
    whose name or value fails its validator, and no error is returned. *)
Definition only_invalid_labels_dropped (h : Host) (re : Regexp)
    (source : FeatureSource) : Prop :=
  ∀ features,
    Discover source (conf source) h = Returns features →
    ∃ labels,
      getFeatureLabels h source (Some re) = (Some labels, None)
      ∧ ∀ k v, (k, v) ∈ features →
          labels !! (labelNames (prefixOf source) k).1.1 = None
          ↔ IsQualifiedName (labelNames (prefixOf source) k).1.2 ≠ []
            ∨ IsValidLabelValue (Sprintf_v v) ≠ [].

(** Every section of the document that names a known source and
    decodes is applied, whatever happens to the other sections. *)
Definition decodable_sections_applied (c : gmap string Config)
    (data : string) : Prop :=
  ∀ raw k rawv v,
    Unmarshal_raw data = Ok raw →
    (k, rawv) ∈ raw →
    c !! k = Some v →
    (Unmarshal_Config rawv v).2 = None →
    (UnmarshalJSON c data).1 !! k = Some (Unmarshal_Config rawv v).1.

End Readings.

(** * Properties *)

(** ** Go strings *)

Lemma append_String a s t : String a s +:+ t = String a (s +:+ t).
Proof. reflexivity. Qed.

Lemma append_Empty t : EmptyString +:+ t = t.
Proof. reflexivity. Qed.

Lemma Contains_append s t c :
  strings.Contains (s +:+ t) c = strings.Contains s c || strings.Contains t c.
Proof.
  induction s as [|a s IH]; [done|].
  rewrite append_String. simpl. by destruct (decide (a = c)).
Qed.

Lemma SplitN_1 s c : strings.SplitN s c 1 = [s].
Proof. by destruct s. Qed.

Lemma SplitN_2_without s c :
  strings.Contains s c = false → strings.SplitN s c 2 = [s].
Proof.
  induction s as [|a s IH]; [done|].
  simpl. destruct (decide (a = c)); [done|].
  intros Hs. by rewrite (IH Hs).
Qed.

Lemma SplitN_2_at_first ns name c :
  strings.Contains ns c = false →
  strings.SplitN (ns +:+ String c name) c 2 = [ns; name].
Proof.
  induction ns as [|a ns IH].
  - intros _. rewrite append_Empty. simpl.
    destruct (decide (c = c)); [|done]. by rewrite SplitN_1.
  - rewrite append_String. simpl. destruct (decide (a = c)); [done|].
    intros Hns. by rewrite (IH Hns).
Qed.

Lemma Contains_true_split s c :
  strings.Contains s c = true →
  ∃ ns name, s = ns +:+ String c name ∧ strings.Contains ns c = false.
Proof.
  induction s as [|a s IH]; [done|].
  simpl. destruct (decide (a = c)) as [->|Hne].
  - intros _. by exists EmptyString, s.
  - intros Hs. destruct (IH Hs) as (ns & name & -> & Hns).
    exists (String a ns), name. split; [done|].
    simpl. by destruct (decide (a = c)).
Qed.

Section Aggregator.
Context {ext : Collaborators}.

(** ** Label names *)

Lemma labelNames_plain prefix k :
  strings.Contains k "/" = false →
  labelNames prefix k = (prefix +:+ k, "ns/" +:+ prefix +:+ k, prefix +:+ k).
Proof.
  intros Hk. unfold labelNames. by rewrite (SplitN_2_without _ _ Hk).
Qed.

Lemma labelNames_namespaced prefix ns name :
  strings.Contains ns "/" = false →
  labelNames prefix (ns +:+ String "/" name)
  = (ns +:+ String "/" name, ns +:+ String "/" name, name).
Proof.
  intros Hns. unfold labelNames. by rewrite (SplitN_2_at_first _ _ _ Hns).
Qed.

(** The label keeps or loses the separator with the key, so with a
    prefix free of it two keys never share a label. *)
Lemma label_Contains prefix k :
  strings.Contains prefix "/" = false →
  strings.Contains (labelNames prefix k).1.1 "/" = strings.Contains k "/".
Proof.
  intros Hp. destruct (strings.Contains k "/") eqn:Hk.
  - destruct (Contains_true_split _ _ Hk) as (ns & name & -> & Hns).
    rewrite (labelNames_namespaced _ _ _ Hns). simpl.
    rewrite Contains_append, Hns. simpl.
    by destruct (decide ("/"%char = "/"%char)).
  - rewrite (labelNames_plain _ _ Hk). simpl.
    by rewrite Contains_append, Hp, Hk.
Qed.

Lemma label_inj prefix k k' :
  strings.Contains prefix "/" = false →
  (labelNames prefix k).1.1 = (labelNames prefix k').1.1 → k = k'.
Proof.
  intros Hp Heq.
  pose proof (label_Contains prefix k Hp) as Hk.
  pose proof (label_Contains prefix k' Hp) as Hk'.
  rewrite Heq, Hk' in Hk.
  destruct (strings.Contains k "/") eqn:Hc.
  - destruct (Contains_true_split _ _ Hc) as (ns & name & -> & Hns).
    destruct (Contains_true_split _ _ Hk) as (ns' & name' & -> & Hns').
    by rewrite !labelNames_namespaced in Heq.
  - rewrite !labelNames_plain in Heq by done. simpl in Heq.
    by apply (inj (String.app prefix)) in Heq.
Qed.

(** ** One iteration *)

Lemma iteration_Store prefix wl k v label value :
  iteration prefix wl k v = Store label value →
  label = (labelNames prefix k).1.1 ∧ value = Sprintf_v v.
Proof.
  unfold iteration. destruct (labelNames prefix k) as [[l nv] nw]. simpl.
  repeat case_decide; try done.
  destruct wl as [re|]; [|done].
  destruct (MatchString re nw); simpl; [|done].
  by intros [= <- <-].
Qed.

Lemma iteration_Some prefix re k v :
  iteration prefix (Some re) k v =
    let '(label, nameForValidation, nameForWhiteListing) := labelNames prefix k in
    if decide (IsQualifiedName nameForValidation = []
               ∧ IsValidLabelValue (Sprintf_v v) = []
               ∧ MatchString re nameForWhiteListing = true)
    then Store label (Sprintf_v v) else Skip.
Proof.
  unfold iteration. destruct (labelNames prefix k) as [[l nv] nw].
  destruct (IsQualifiedName nv), (IsValidLabelValue (Sprintf_v v)),
    (MatchString re nw); simpl; repeat case_decide; try done; try lia;
    naive_solver.
Qed.

(** ** The loop over the features *)

(** With a compiled whitelist the loop body cannot panic. *)
Lemma rangeFeatures_no_panic prefix re features labels :
  (rangeFeatures prefix (Some re) features labels).2 = None.
Proof.
  revert labels. induction features as [|[k v] rest IH]; intros labels; [done|].
  simpl. rewrite iteration_Some.
  destruct (labelNames prefix k) as [[l nv] nw]. by case_decide.
Qed.

(** A name that is the label of no key is left as it was. *)
Lemma rangeFeatures_other prefix wl features labels l :
  (∀ k, k ∈ features.*1 → (labelNames prefix k).1.1 ≠ l) →
  (rangeFeatures prefix wl features labels).1 !! l = labels !! l.
Proof.
  revert labels. induction features as [|[k v] rest IH]; intros labels Hl; [done|].
  simpl. assert (∀ k', k' ∈ rest.*1 → (labelNames prefix k').1.1 ≠ l) as Hrest.
  { intros k' Hk'. apply Hl. simpl. apply elem_of_cons. by right. }
  destruct (iteration prefix wl k v) as [|label value|r] eqn:Hit; [by apply IH| |done].
  rewrite IH by done. apply iteration_Store in Hit as [-> _].
  apply lookup_insert_ne, Hl. simpl. apply elem_of_cons. by left.
Qed.

(** The entry of a key decides what its label maps to. *)
Lemma rangeFeatures_lookup prefix re features labels k v :
  strings.Contains prefix "/" = false →
  NoDup features.*1 →
  (k, v) ∈ features →
  (rangeFeatures prefix (Some re) features labels).1 !! (labelNames prefix k).1.1
  = match iteration prefix (Some re) k v with
    | Store _ value => Some value
    | _ => labels !! (labelNames prefix k).1.1
    end.
Proof.
  intros Hp. revert labels.
  induction features as [|[k0 v0] rest IH]; intros labels Hnd Hin.
  { by apply elem_of_nil in Hin. }
  simpl in Hnd. apply NoDup_cons in Hnd as [Hk0 Hnd].
  assert (∀ k', k' ∈ rest.*1 → k' ≠ k0) as Hfresh by (intros k' ? ->; done).
  apply elem_of_cons in Hin as [[= <- <-]|Hin].
  - simpl.
    assert (∀ k', k' ∈ rest.*1 → (labelNames prefix k').1.1 ≠ (labelNames prefix k).1.1)
      as Hother.
    { intros k' Hk' Heq. by apply (Hfresh k' Hk'), (label_inj prefix). }
    destruct (iteration prefix (Some re) k v) as [|label value|r] eqn:Hit.
    + by apply rangeFeatures_other.
    + rewrite rangeFeatures_other by done.
      apply iteration_Store in Hit as [-> _]. apply lookup_insert_eq.
    + by rewrite iteration_Some in Hit;
        destruct (labelNames prefix k) as [[? ?] ?]; case_decide.
  - assert (k ≠ k0) as Hne.
    { apply Hfresh. by apply (list_elem_of_fmap_2 fst _ (k, v)). }
    simpl. destruct (iteration prefix (Some re) k0 v0) as [|label value|r] eqn:Hit.
    + by apply IH.
    + rewrite IH by done.
      destruct (iteration prefix (Some re) k v); try done.
      * apply iteration_Store in Hit as [-> _]. apply lookup_insert_ne.
        intros Heq. by apply Hne, eq_sym, (label_inj prefix).
      * apply iteration_Store in Hit as [-> _]. apply lookup_insert_ne.
        intros Heq. by apply Hne, eq_sym, (label_inj prefix).
    + by rewrite iteration_Some in Hit;
        destruct (labelNames prefix k0) as [[? ?] ?]; case_decide.
Qed.

(** Every enumeration of a Go map is a list the lemmas above apply to. *)
Lemma range_enumerates (m : gmap string Value) features :
  features ≡ₚ map_to_list m →
  NoDup features.*1 ∧ ∀ k v, (k, v) ∈ features ↔ m !! k = Some v.
Proof.
  intros Hperm. split.
  - rewrite Hperm. apply NoDup_fst_map_to_list.
  - intros k v. rewrite Hperm. apply elem_of_map_to_list.
Qed.

(** ** [getFeatureLabels] *)

Lemma getFeatureLabels_Returns h source re features :
  Discover source (conf source) h = Returns features →
  getFeatureLabels h source (Some re)
  = (Some (rangeFeatures (prefixOf source) (Some re) features ∅).1, None).
Proof.
  intros Hd. unfold getFeatureLabels. rewrite Hd.
  pose proof (rangeFeatures_no_panic (prefixOf source) re features ∅) as Hnp.
  destruct (rangeFeatures (prefixOf source) (Some re) features ∅) as [labels r].
  simpl in Hnp. by subst r.
Qed.

Lemma prefixOf_cases source :
  prefixOf source = if decide (type_of source = local) then EmptyString
                    else Name source +:+ "-".
Proof. unfold prefixOf. by destruct (type_of source). Qed.

End Aggregator.

Lemma append_assoc s t u : (s +:+ t) +:+ u = s +:+ t +:+ u.
Proof. induction s as [|a s IH]; [done|]. by rewrite !append_String, IH. Qed.

Section LabelNaming.
Context {ext : Collaborators}.

(** C2.  A raw key [k] without '/' discovered by [source] is published
    under [Name source ++ "-" ++ k], and under [k] itself when the source
    is the local one: that is the label the loop computes for [k], and in
    the label set [getFeatureLabels] returns that name maps to the
    rendered value exactly when the name, the value and the whitelist
    checks pass, and to nothing otherwise. *)
Theorem plain_key_label h source re features k v :
  Discover source (conf source) h = Returns features →
  NoDup features.*1 →
  (k, v) ∈ features →
  strings.Contains k "/" = false →
  strings.Contains (prefixOf source) "/" = false →
  let name := if decide (type_of source = local) then k
              else Name source +:+ "-" +:+ k in
  ∃ labels,
    getFeatureLabels h source (Some re) = (Some labels, None)
    ∧ (labelNames (prefixOf source) k).1.1 = name
    ∧ (labels !! name = Some (Sprintf_v v) ∨ labels !! name = None)
    ∧ (labels !! name = Some (Sprintf_v v)
       ↔ IsQualifiedName ("ns/" +:+ name) = []
         ∧ IsValidLabelValue (Sprintf_v v) = []
         ∧ MatchString re name = true).
Proof.
  intros Hd Hnd Hin Hk Hp name.
  assert (prefixOf source +:+ k = name) as Hname.
  { unfold name. rewrite prefixOf_cases. case_decide; [done|].
    apply append_assoc. }
  eexists. split; [by apply getFeatureLabels_Returns|].
  pose proof (rangeFeatures_lookup _ re _ ∅ _ _ Hp Hnd Hin) as Hl.
  rewrite iteration_Some, labelNames_plain in Hl by done.
  rewrite labelNames_plain by done. simpl in *. rewrite Hname in *.
  split; [done|]. rewrite lookup_empty in Hl.
  case_decide; rewrite Hl; intuition congruence.
Qed.

(** C3.  A raw key [ns/name] is published verbatim, whatever the source,
    and of the three checks that decide whether it is published the
    whitelist one looks at [name] only. *)
Theorem namespaced_key_label h source re features ns name v :
  Discover source (conf source) h = Returns features →
  NoDup features.*1 →
  (ns +:+ "/" +:+ name, v) ∈ features →
  strings.Contains ns "/" = false →
  strings.Contains (prefixOf source) "/" = false →
  let k := ns +:+ "/" +:+ name in
  ∃ labels,
    getFeatureLabels h source (Some re) = (Some labels, None)
    ∧ labelNames (prefixOf source) k = (k, k, name)
    ∧ (labels !! k = Some (Sprintf_v v) ∨ labels !! k = None)
    ∧ (labels !! k = Some (Sprintf_v v)
       ↔ IsQualifiedName k = []
         ∧ IsValidLabelValue (Sprintf_v v) = []
         ∧ MatchString re name = true).
Proof.
  intros Hd Hnd Hin Hns Hp k.
  change (ns +:+ "/" +:+ name) with (ns +:+ String "/" name) in *.
  eexists. split; [by apply getFeatureLabels_Returns|].
  pose proof (rangeFeatures_lookup _ re _ ∅ _ _ Hp Hnd Hin) as Hl.
  rewrite iteration_Some, labelNames_namespaced in Hl by done.
  unfold k. rewrite labelNames_namespaced by done. simpl in *.
  split; [done|]. rewrite lookup_empty in Hl.
  case_decide; rewrite Hl; intuition congruence.
Qed.

End LabelNaming.

Section Merging.
Context {ext : Collaborators}.

(** ** Merging the label sets of the sources *)

Lemma mergeLabels_union (labelsFromSource labels : Labels) :
  mergeLabels labelsFromSource labels = labelsFromSource ∪ labels.
Proof.
  unfold mergeLabels.
  apply (map_fold_weak_ind (λ r m, r = m ∪ labels)).
  - by rewrite (left_id_L ∅ (∪)).
  - intros name value m r _ ->. by rewrite insert_union_l.
Qed.

(** The keys of a map are distinct, so the inner loop gives the same
    result in whatever order [range] visits the entries. *)
Lemma merge_in_any_order (entries : list (string * string)) (labels : Labels) :
  NoDup entries.*1 →
  foldl (λ acc entry, <[entry.1 := entry.2]> acc) labels entries
  = list_to_map entries ∪ labels.
Proof.
  revert labels. induction entries as [|[name value] rest IH]; intros labels Hnd.
  - simpl. by rewrite (left_id_L ∅ (∪)).
  - simpl in *. apply NoDup_cons in Hnd as [Hname Hnd].
    rewrite IH by done. rewrite <-insert_union_l. symmetry.
    apply insert_union_r. by apply not_elem_of_list_to_map_1.
Qed.

Lemma mergeLabels_any_order (labelsFromSource labels : Labels)
    (entries : list (string * string)) :
  entries ≡ₚ map_to_list labelsFromSource →
  foldl (λ acc entry, <[entry.1 := entry.2]> acc) labels entries
  = mergeLabels labelsFromSource labels.
Proof.
  intros Hperm.
  assert (NoDup entries.*1) as Hnd.
  { rewrite Hperm. apply NoDup_fst_map_to_list. }
  rewrite merge_in_any_order, mergeLabels_union by done.
  f_equal. rewrite <-(list_to_map_to_list labelsFromSource).
  by apply list_to_map_proper.
Qed.

Lemma createFeatureLabels_snoc h sources source wl :
  createFeatureLabels h (sources ++ [source]) wl
  = match getFeatureLabels h source wl with
    | (_, Some _) => createFeatureLabels h sources wl
    | (labelsFromSource, None) =>
        default ∅ labelsFromSource ∪ createFeatureLabels h sources wl
    end.
Proof.
  unfold createFeatureLabels. rewrite foldl_app. simpl.
  destruct (getFeatureLabels h source wl) as [labelsFromSource [err|]]; [done|].
  apply mergeLabels_union.
Qed.

Lemma createFeatureLabels_drop h pre source post wl err :
  (getFeatureLabels h source wl).2 = Some err →
  createFeatureLabels h (pre ++ source :: post) wl
  = createFeatureLabels h (pre ++ post) wl.
Proof.
  intros Herr. unfold createFeatureLabels. rewrite !foldl_app. simpl.
  destruct (getFeatureLabels h source wl) as [labelsFromSource e].
  simpl in Herr. by subst e.
Qed.

Lemma createFeatureLabels_skip h pre source post wl :
  getFeatureLabels h source wl = (Some ∅, None) →
  createFeatureLabels h (pre ++ source :: post) wl
  = createFeatureLabels h (pre ++ post) wl.
Proof.
  intros Hempty. unfold createFeatureLabels. rewrite !foldl_app. simpl.
  rewrite Hempty. simpl. by rewrite mergeLabels_union, (left_id_L ∅ (∪)).
Qed.

(** What a source returned without error is in the result, by name. *)
Lemma createFeatureLabels_present h sources wl source labels x :
  source ∈ sources →
  getFeatureLabels h source wl = (Some labels, None) →
  is_Some (labels !! x) →
  is_Some (createFeatureLabels h sources wl !! x).
Proof.
  intros Hin Hget Hx. induction sources as [|last sources IH] using rev_ind.
  { by apply elem_of_nil in Hin. }
  rewrite createFeatureLabels_snoc.
  apply elem_of_app in Hin as [Hin|Hin].
  - destruct (getFeatureLabels h last wl) as [labelsFromSource [err|]]; [by apply IH|].
    apply lookup_union_is_Some. right. by apply IH.
  - apply list_elem_of_singleton in Hin as <-. rewrite Hget. simpl.
    apply lookup_union_is_Some. by left.
Qed.

(** The value of a name is the one given by the last source that
    returned it. *)
Lemma createFeatureLabels_last h pre source post wl labels x value :
  getFeatureLabels h source wl = (Some labels, None) →
  labels !! x = Some value →
  (∀ later labels', later ∈ post →
     getFeatureLabels h later wl = (Some labels', None) → labels' !! x = None) →
  createFeatureLabels h (pre ++ source :: post) wl !! x = Some value.
Proof.
  intros Hget Hx. induction post as [|last post IH] using rev_ind; intros Hpost.
  - rewrite createFeatureLabels_snoc, Hget. simpl.
    by apply lookup_union_Some_l.
  - rewrite app_comm_cons, app_assoc, createFeatureLabels_snoc.
    assert (createFeatureLabels h (pre ++ source :: post) wl !! x = Some value)
      as Hrec.
    { apply IH. intros later labels' Hin. apply Hpost, elem_of_app. by left. }
    destruct (getFeatureLabels h last wl) as [[labels'|] [err|]] eqn:Hlast;
      try done.
    + simpl. rewrite lookup_union_r; [done|].
      apply (Hpost last); [|done]. apply elem_of_app. right.
      by apply list_elem_of_singleton.
    + simpl. by rewrite (left_id_L ∅ (∪)).
Qed.

End Merging.

Section Isolation.
Context {ext : Collaborators}.

(** C1, as the code has it.  A source whose discovery returns an error
    or panics contributes no label: the aggregated set is the one
    obtained without that source, and every name returned by any other
    source is in it.  [getFeatureLabels] returns the error of the
    discovery, and for a panic with a non-nil value the error made from
    that value; after a [panic(nil)] it returns the empty set and no
    error. *)
Theorem failing_source_is_isolated h pre bad post wl :
  (∃ e, Discover bad (conf bad) h = Fails e)
  ∨ (∃ r, Discover bad (conf bad) h = Panics r)
  ∨ Discover bad (conf bad) h = PanicsNil →
  (∀ e, Discover bad (conf bad) h = Fails e →
     getFeatureLabels h bad wl = (None, Some e))
  ∧ (∀ r, Discover bad (conf bad) h = Panics r →
       getFeatureLabels h bad wl = (Some ∅, Some (Sprintf_v r)))
  ∧ (Discover bad (conf bad) h = PanicsNil →
     getFeatureLabels h bad wl = (Some ∅, None))
  ∧ createFeatureLabels h (pre ++ bad :: post) wl
    = createFeatureLabels h (pre ++ post) wl
  ∧ (∀ source labels x,
       source ∈ pre ++ post →
       getFeatureLabels h source wl = (Some labels, None) →
       is_Some (labels !! x) →
       is_Some (createFeatureLabels h (pre ++ bad :: post) wl !! x)).
Proof.
  intros Hbad.
  assert (createFeatureLabels h (pre ++ bad :: post) wl
          = createFeatureLabels h (pre ++ post) wl) as Hdrop.
  { destruct Hbad as [[e Hd]|[[r Hd]|Hd]].
    - apply (createFeatureLabels_drop _ _ _ _ _ e).
      unfold getFeatureLabels. by rewrite Hd.
    - apply (createFeatureLabels_drop _ _ _ _ _ (Sprintf_v r)).
      unfold getFeatureLabels. by rewrite Hd.
    - apply createFeatureLabels_skip. unfold getFeatureLabels. by rewrite Hd. }
  unfold getFeatureLabels at 1 2 3.
  split; [by intros e ->|]. split; [by intros r ->|]. split; [by intros ->|].
  rewrite Hdrop. split; [done|].
  intros source labels x. apply createFeatureLabels_present.
Qed.

(** C4, as the code has it.  The aggregated set gives a name the value
    returned by the last source, in the order of the list, that returned
    that name: a source's value stands when no source after it returns
    the name. *)
Theorem last_source_wins h pre source post wl labels x value :
  getFeatureLabels h source wl = (Some labels, None) →
  labels !! x = Some value →
  (∀ later labels', later ∈ post →
     getFeatureLabels h later wl = (Some labels', None) → labels' !! x = None) →
  createFeatureLabels h (pre ++ source :: post) wl !! x = Some value.
Proof. apply createFeatureLabels_last. Qed.

End Isolation.

Lemma failing_source_is_isolated_witness :
  createFeatureLabels (ext := Example.collaborators) tt
    ([Example.cpu_model] ++ Example.crashing :: [Example.local_override]) (Some EmptyString)
  = createFeatureLabels (ext := Example.collaborators) tt
      ([Example.cpu_model] ++ [Example.local_override]) (Some EmptyString).
Proof.
  apply (failing_source_is_isolated (ext := Example.collaborators) tt
           [Example.cpu_model] Example.crashing [Example.local_override]).
  right. left. exists "boom". reflexivity.
Defined.

(** C1, as stated, fails for a source that panics with nil: the deferred
    function finds [recover()] nil and sets no error, so the caller is
    handed the empty label set as a success. *)
Lemma every_failure_becomes_error_fails :
  ¬ every_failure_becomes_error (ext := Example.collaborators) tt
      (Some EmptyString) Example.crashing_with_nil.
Proof.
  intros Hall. destruct Hall as [err Herr].
  - intros features. discriminate.
  - discriminate Herr.
Qed.

Lemma last_source_wins_witness :
  createFeatureLabels (ext := Example.collaborators) tt
    ([Example.cpu_model] ++ Example.local_override :: []) (Some EmptyString)
  !! "cpu-model" = Some "arm64".
Proof.
  apply (last_source_wins (ext := Example.collaborators) tt
           [Example.cpu_model] Example.local_override [] (Some EmptyString)
           {["cpu-model" := "arm64"]}).
  - reflexivity.
  - reflexivity.
  - intros later labels' Hin. inversion Hin.
Defined.

(** C4, as stated, fails when a third source returns the name as well:
    of [custom], [local] and [fake], all returning [example.com/x], the
    pair ([custom], [local]) does not leave the value of [local]. *)
Lemma every_later_source_wins_fails :
  ¬ every_later_source_wins (ext := Example.collaborators) tt (Some EmptyString)
      [Example.custom_x; Example.local_x; Example.fake_x].
Proof.
  intros Hall.
  specialize (Hall [] Example.custom_x [] Example.local_x [Example.fake_x]
                {["example.com/x" := "1"]} {["example.com/x" := "2"]}
                "example.com/x" "1" "2"
                eq_refl eq_refl eq_refl eq_refl eq_refl).
  vm_compute in Hall. discriminate Hall.
Qed.

Section Filtering.
Context {ext : Collaborators}.

(** Whatever the loop adds is the label of one of the keys, with the
    rendering of its value. *)
Lemma rangeFeatures_origin prefix wl features labels l value :
  (rangeFeatures prefix wl features labels).1 !! l = Some value →
  labels !! l = Some value
  ∨ ∃ k v, (k, v) ∈ features ∧ l = (labelNames prefix k).1.1
           ∧ value = Sprintf_v v.
Proof.
  revert labels. induction features as [|[k v] rest IH]; intros labels; [by left|].
  simpl.
  assert (∀ labels0,
            (rangeFeatures prefix wl rest labels0).1 !! l = Some value →
            labels0 !! l = Some value
            ∨ ∃ k0 v0, (k0, v0) ∈ (k, v) :: rest
                       ∧ l = (labelNames prefix k0).1.1 ∧ value = Sprintf_v v0)
    as IH'.
  { intros labels0 H0. destruct (IH _ H0) as [?|(k0 & v0 & ? & ? & ?)]; [by left|].
    right. exists k0, v0. split; [|done]. apply elem_of_cons. by right. }
  destruct (iteration prefix wl k v) as [|label value'|r] eqn:Hit;
    [by apply IH'| |by intros ?; left].
  intros Hl. destruct (IH' _ Hl) as [Hins|?]; [|by right].
  apply iteration_Store in Hit as [-> ->].
  destruct (decide ((labelNames prefix k).1.1 = l)) as [<-|Hne].
  - rewrite lookup_insert_eq in Hins. injection Hins as <-.
    right. exists k, v. split; [|done]. apply elem_of_cons. by left.
  - rewrite lookup_insert_ne in Hins by done. by left.
Qed.

(** C5, as the code has it.  [getFeatureLabels] returns no error for a
    source whose discovery returned; the label of a key is missing from
    the result exactly when its name fails the qualified-name validator,
    its rendered value fails the label-value validator, or the name
    handed to the whitelist does not match; a label that is there has
    the rendered value, and nothing else is in the result. *)
Theorem invalid_or_unlisted_labels_dropped h source re features :
  Discover source (conf source) h = Returns features →
  NoDup features.*1 →
  strings.Contains (prefixOf source) "/" = false →
  ∃ labels,
    getFeatureLabels h source (Some re) = (Some labels, None)
    ∧ (∀ k v, (k, v) ∈ features →
         (labels !! (labelNames (prefixOf source) k).1.1 = None
          ↔ IsQualifiedName (labelNames (prefixOf source) k).1.2 ≠ []
            ∨ IsValidLabelValue (Sprintf_v v) ≠ []
            ∨ MatchString re (labelNames (prefixOf source) k).2 = false)
         ∧ (labels !! (labelNames (prefixOf source) k).1.1 = None
            ∨ labels !! (labelNames (prefixOf source) k).1.1 = Some (Sprintf_v v)))
    ∧ (∀ l value, labels !! l = Some value →
         ∃ k v, (k, v) ∈ features ∧ l = (labelNames (prefixOf source) k).1.1
                ∧ value = Sprintf_v v).
Proof.
  intros Hd Hnd Hp. eexists. split; [by apply getFeatureLabels_Returns|]. split.
  - intros k v Hin.
    rewrite (rangeFeatures_lookup _ re _ ∅ _ _ Hp Hnd Hin), iteration_Some.
    destruct (labelNames (prefixOf source) k) as [[label nv] nw]. simpl.
    rewrite lookup_empty.
    destruct (IsQualifiedName nv), (IsValidLabelValue (Sprintf_v v)),
      (MatchString re nw); case_decide; intuition congruence.
  - intros l value Hl.
    destruct (rangeFeatures_origin _ _ _ _ _ _ Hl) as [Hempty|?]; [|done].
    by rewrite lookup_empty in Hempty.
Qed.

End Filtering.

Lemma invalid_or_unlisted_labels_dropped_witness :
  ∃ labels,
    getFeatureLabels (ext := Example.collaborators) tt Example.cpu_mixed (Some "model")
    = (Some labels, None)
    ∧ labels !! "example.com/rdt" = None.
Proof.
  destruct (invalid_or_unlisted_labels_dropped (ext := Example.collaborators) tt
              Example.cpu_mixed "model"
              [("model", "x86_64"); ("example.com/rdt", "true")])
    as (labels & Hget & Hkeys & _).
  - reflexivity.
  - apply (bool_decide_unpack _). vm_compute. exact I.
  - reflexivity.
  - exists labels. split; [exact Hget|].
    apply (Hkeys "example.com/rdt" "true").
    + apply elem_of_cons. right. apply elem_of_cons. left. reflexivity.
    + right. right. reflexivity.
Defined.

(** C5, as stated, fails for a label that passes both validators and is
    not on the whitelist: [cpu-model] with the whitelist [memory]. *)
Lemma only_invalid_labels_dropped_fails :
  ¬ only_invalid_labels_dropped (ext := Example.collaborators) tt "memory"
      Example.cpu_model.
Proof.
  intros Hall.
  destruct (Hall [("model", "x86_64")] eq_refl) as (labels & Hget & Hkeys).
  injection Hget as <-.
  destruct (Hkeys "model" "x86_64") as [Habsent _].
  { apply elem_of_cons. by left. }
  destruct (Habsent eq_refl) as [Hname|Hvalue].
  - by apply Hname.
  - by apply Hvalue.
Qed.

Lemma plain_key_label_witness :
  ∃ labels,
    getFeatureLabels (ext := Example.collaborators) tt Example.cpu_model (Some EmptyString)
    = (Some labels, None)
    ∧ labels !! "cpu-model" = Some "x86_64".
Proof.
  destruct (plain_key_label (ext := Example.collaborators) tt Example.cpu_model
              EmptyString [("model", "x86_64")] "model" "x86_64")
    as (labels & Hget & _ & _ & Hiff).
  - reflexivity.
  - apply NoDup_singleton.
  - apply elem_of_cons. left. reflexivity.
  - reflexivity.
  - reflexivity.
  - exists labels. split; [exact Hget|]. apply Hiff. repeat split.
Defined.

Lemma namespaced_key_label_witness :
  ∃ labels,
    getFeatureLabels (ext := Example.collaborators) tt Example.cpu_mixed (Some "rdt")
    = (Some labels, None)
    ∧ labels !! "example.com/rdt" = Some "true".
Proof.
  destruct (namespaced_key_label (ext := Example.collaborators) tt Example.cpu_mixed
              "rdt" [("model", "x86_64"); ("example.com/rdt", "true")]
              "example.com" "rdt" "true")
    as (labels & Hget & _ & _ & Hiff).
  - reflexivity.
  - apply (bool_decide_unpack _). vm_compute. exact I.
  - apply elem_of_cons. right. apply elem_of_cons. left. reflexivity.
  - reflexivity.
  - reflexivity.
  - exists labels. split; [exact Hget|]. apply Hiff. repeat split.
Defined.

Section SourcesSection.
Context {ext : Collaborators}.

(** ** Decoding the sources section *)

Lemma decodeSources_known raw (c : gmap string Config) :
  decodeSources (filter (λ entry, entry.1 ∈ dom c) raw) c = decodeSources raw c.
Proof.
  revert c. induction raw as [|[k rawv] rest IH]; intros c; [done|].
  destruct (c !! k) as [v|] eqn:Hk.
  - assert (k ∈ dom c) as Hdom by (apply elem_of_dom; eauto).
    rewrite filter_cons_True by done.
    simpl. rewrite Hk.
    destruct (Unmarshal_Config rawv v) as [v' [err|]]; [done|].
    rewrite <-IH. rewrite dom_insert_L.
    replace ({[k]} ∪ dom c) with (dom c); [done|].
    apply set_eq. intros k0. rewrite elem_of_union, elem_of_singleton.
    split; [by right|]. by intros [->|?].
  - rewrite filter_cons_False by (by apply not_elem_of_dom).
    simpl. by rewrite Hk.
Qed.

Lemma decodeSources_app pre post (c c1 : gmap string Config) :
  decodeSources pre c = (c1, None) →
  decodeSources (pre ++ post) c = decodeSources post c1.
Proof.
  revert c. induction pre as [|[k rawv] pre IH]; intros c; simpl.
  { by intros [= ->]. }
  destruct (c !! k) as [v|]; [|by apply IH].
  destruct (Unmarshal_Config rawv v) as [v' [err|]]; [done|by apply IH].
Qed.

(** C6, as the code has it.  Entries of the document that name no
    pre-registered source are skipped without error.  The first known
    section, in the order the entries are visited, that fails to decode
    ends [UnmarshalJSON] with an error that names its key: the sections
    visited before it stay applied, and nothing that comes after it is
    looked at. *)
Theorem first_failing_section_stops_decoding (c : gmap string Config) data raw :
  Unmarshal_raw data = Ok raw →
  UnmarshalJSON c data
  = decodeSources (filter (λ entry, entry.1 ∈ dom c) raw) c
  ∧ ((∀ entry, entry ∈ raw → c !! entry.1 = None) →
     UnmarshalJSON c data = (c, None))
  ∧ (∀ pre k rawv post c1 v v' err,
       raw = pre ++ (k, rawv) :: post →
       decodeSources pre c = (c1, None) →
       c1 !! k = Some v →
       Unmarshal_Config rawv v = (v', Some err) →
       UnmarshalJSON c data
       = (<[k := v']> c1,
          Some ("failed to parse " +:+ Quote k +:+ " source config: " +:+ err))).
Proof.
  intros Hraw. unfold UnmarshalJSON. rewrite Hraw. split; [|split].
  - by rewrite decodeSources_known.
  - clear Hraw. induction raw as [|[k rawv] rest IH]; intros Hunknown; [done|].
    assert (c !! k = None) as Hk.
    { apply (Hunknown (k, rawv)), elem_of_cons. by left. }
    simpl. rewrite Hk.
    apply IH. intros entry Hin. apply Hunknown, elem_of_cons. by right.
  - intros pre k rawv post c1 v v' err -> Hpre Hk Hdec.
    rewrite (decodeSources_app _ _ _ _ Hpre). simpl. by rewrite Hk, Hdec.
Qed.

End SourcesSection.

Lemma first_failing_section_stops_decoding_witness :
  UnmarshalJSON (ext := Example.collaborators)
    {["cpu" := "0"; "pci" := "0"]} "zz:1,cpu:x,pci:7"
  = ({["cpu" := "0"; "pci" := "0"]},
     Some "failed to parse 'cpu' source config: cannot unmarshal string into Go value").
Proof.
  destruct (first_failing_section_stops_decoding (ext := Example.collaborators)
              {["cpu" := "0"; "pci" := "0"]} "zz:1,cpu:x,pci:7"
              [("zz", "1"); ("cpu", "x"); ("pci", "7")] eq_refl)
    as (_ & _ & Hstop).
  rewrite (Hstop [("zz", "1")] "cpu" "x" [("pci", "7")]
             {["cpu" := "0"; "pci" := "0"]} "0" "0"
             "cannot unmarshal string into Go value"
             eq_refl eq_refl eq_refl eq_refl).
  vm_compute. reflexivity.
Defined.

(** C6, as stated, fails when a section that does not decode is visited
    before one that does: with [cpu:x,pci:7] the [pci] section is never
    applied. *)
Lemma decodable_sections_applied_fails :
  ¬ decodable_sections_applied (ext := Example.collaborators)
      {["cpu" := "0"; "pci" := "0"]} "cpu:x,pci:7".
Proof.
  intros Hall.
  specialize (Hall [("cpu", "x"); ("pci", "7")] "pci" "7" "0" eq_refl).
  assert (("pci", "7") ∈ [("cpu", "x"); ("pci", "7")]) as Hin.
  { apply elem_of_cons. right. apply elem_of_cons. by left. }
  specialize (Hall Hin eq_refl eq_refl).
  vm_compute in Hall. discriminate Hall.
Qed.

Section Connection.
Context {ext : Collaborators}.

(** ** The connection manager *)

(** C8.  In dry-run [connect] succeeds without a call to the network and
    without touching the worker.  Otherwise an existing connection makes
    it fail, again without a call; and when the dial fails the error of
    the dial is returned and the worker is as before, with no connection
    stored. *)
Theorem connect_outcomes σ w :
  (NoPublish (Core (config w)) = true → connect σ w = (w, None, []))
  ∧ (NoPublish (Core (config w)) = false →
     is_Some (clientConn w) →
     connect σ w = (w, Some "client connection already exists", []))
  ∧ (NoPublish (Core (config w)) = false →
     clientConn w = None →
     ∀ dialOpts err,
       dialOptions σ (args w) = Ok dialOpts →
       DialContext σ (Server (args w)) dialOpts = Err err →
       connect σ w = (w, Some err, [Dial (Server (args w)) dialOpts])
       ∧ clientConn (connect σ w).1.1 = None
       ∧ client (connect σ w).1.1 = client w).
Proof.
  unfold connect. split; [by intros ->|]. split.
  - by intros -> [conn ->].
  - intros Hpublish Hnone dialOpts err Hopts Hdial.
    by rewrite Hpublish, Hnone, Hopts, Hdial.
Qed.

End Connection.

Lemma connect_outcomes_witness :
  connect (Example.world Example.no_file (Err "connection refused") None)
    (Example.worker false 0 None)
  = (Example.worker false 0 None, Some "connection refused",
     [Dial "nfd-master:8080" [WithBlock; WithInsecure]]).
Proof.
  apply (connect_outcomes (ext := Example.collaborators)
           (Example.world Example.no_file (Err "connection refused") None)
           (Example.worker false 0 None));
    reflexivity.
Defined.

Section AgentLoop.
Context {ext : Collaborators}.

(** ** The agent loop *)

Lemma configure_connection σ filepath overrides w :
  clientConn (configure σ filepath overrides w) = clientConn w
  ∧ client (configure σ filepath overrides w) = client w.
Proof. done. Qed.

Lemma connect_config σ w : config (connect σ w).1.1 = config w.
Proof.
  unfold connect. destruct (NoPublish (Core (config w))); [done|].
  destruct (clientConn w); [done|].
  destruct (dialOptions σ (args w)) as [dialOpts|]; [|done].
  by destruct (DialContext σ (Server (args w)) dialOpts).
Qed.

Lemma connect_dry_run σ w :
  NoPublish (Core (config w)) = true → connect σ w = (w, None, []).
Proof. unfold connect. by intros ->. Qed.

(** In dry-run the worker holds neither a connection nor a client: true
    when the loop is entered, and kept by every iteration. *)
Lemma start_dry_run σ w st calls :
  clientConn w = None → client w = None →
  start σ w = (Running st, calls) →
  NoPublish (Core (config (self st))) = true →
  clientConn (self st) = None ∧ client (self st) = None.
Proof.
  intros Hconn Hclient. unfold start.
  destruct (addConfigWatch σ (configFilePath w)) as [paths0 [err|]]; [done|].
  set (w' := configure σ (configFilePath w) (Options (args w)) w).
  destruct (NoPublish (Core (config w'))) eqn:Hdry.
  - rewrite (connect_dry_run _ _ Hdry). by intros [= <- <-] _.
  - pose proof (connect_config σ w') as Hcfg.
    destruct (connect σ w') as [[w'' [err|]] calls']; [done|].
    intros [= <- <-]. simpl in *. by rewrite Hcfg, Hdry.
Qed.

Lemma step_dry_run σ e st st' calls :
  (NoPublish (Core (config (self st))) = true →
   clientConn (self st) = None ∧ client (self st) = None) →
  step σ e st = Some (Running st', calls) →
  NoPublish (Core (config (self st'))) = true →
  clientConn (self st') = None ∧ client (self st') = None.
Proof.
  intros Hinv. destruct e as [|name|err|]; simpl.
  - destruct (labelTrigger st); [|done]. unfold onLabelTimer, leave.
    destruct (match client (self st) with
              | Some cl => advertiseFeatureLabels σ cl _
              | None => (None, [])
              end) as [[err|] calls0]; [done|].
    destruct (Oneshot (args (self st))); [done|].
    by case_decide; intros [= <- <-].
  - unfold onWatchEvent, leave. case_decide; [|by intros [= <- <-]].
    destruct (addConfigWatch σ (configFilePath (self st))) as [paths' [err|]];
      [done|]. by intros [= <- <-].
  - by intros [= <- <-].
  - destruct (configTrigger st); [|done]. unfold onConfigTimer, leave.
    cbv zeta.
    remember (configure σ (configFilePath (self st)) (Options (args (self st)))
                (self st)) as w eqn:Hw.
    destruct (NoPublish (Core (config w))) eqn:Hdry.
    + by intros [= <- <-].
    + pose proof (connect_config σ w) as Hcfg.
      destruct (clientConn w).
      * intros [= <- <-]. simpl. by rewrite Hdry.
      * destruct (connect σ w) as [[w' [err|]] calls']; [done|].
        intros [= <- <-]. simpl in *. by rewrite Hcfg, Hdry.
Qed.

Lemma loop_dry_run schedule st st' calls :
  (NoPublish (Core (config (self st))) = true →
   clientConn (self st) = None ∧ client (self st) = None) →
  loop schedule st = Some (Running st', calls) →
  NoPublish (Core (config (self st'))) = true →
  clientConn (self st') = None ∧ client (self st') = None.
Proof.
  revert st calls. induction schedule as [|[σ e] rest IH]; intros st calls Hinv; simpl.
  { by intros [= <- <-]. }
  destruct (step σ e st) as [[[st1|w err] calls1]|] eqn:Hstep; [| |done].
  - destruct (loop rest st1) as [[o calls2]|] eqn:Hloop; [|done].
    intros [= -> <-]. apply (IH _ _ (step_dry_run _ _ _ _ _ Hinv Hstep) Hloop).
  - by destruct rest.
Qed.

(** A schedule that contains an event runs up to it, and the calls of
    the run are those made before the event, those of the event and
    those made after it. *)
Lemma loop_split pre σ e post st o calls :
  loop (pre ++ (σ, e) :: post) st = Some (o, calls) →
  ∃ st1 calls1 o1 calls2 calls3,
    loop pre st = Some (Running st1, calls1)
    ∧ step σ e st1 = Some (o1, calls2)
    ∧ calls = calls1 ++ calls2 ++ calls3.
Proof.
  revert st calls. induction pre as [|[σ0 e0] pre IH]; intros st calls; simpl.
  - destruct (step σ e st) as [[[st1|w err] calls1]|] eqn:Hs; [| |done].
    + destruct (loop post st1) as [[o' calls2]|] eqn:Hloop; [|done].
      intros [= <- <-]. by exists st, [], (Running st1), calls1, calls2.
    + destruct post; [|done]. intros [= <- <-].
      exists st, [], (Returned w err), calls1, []. by rewrite (right_id_L [] (++)).
  - destruct (step σ0 e0 st) as [[[st1|w err] calls1]|] eqn:Hs; [| |done].
    + destruct (loop (pre ++ (σ, e) :: post) st1) as [[o' calls2]|] eqn:Hloop;
        [|done].
      intros [= <- <-].
      destruct (IH _ _ Hloop) as (st2 & calls3 & o1 & calls4 & calls5
                                  & Hpre & Hstep & ->).
      exists st2, (calls1 ++ calls3), o1, calls4, calls5.
      rewrite Hpre. by rewrite <-app_assoc.
    + by destruct pre.
Qed.

Lemma Run_split σ0 pre σ e post w o calls :
  Run σ0 (pre ++ (σ, e) :: post) w = Some (o, calls) →
  ∃ st1 calls1 o1 calls2 calls3,
    Run σ0 pre w = Some (Running st1, calls1)
    ∧ step σ e st1 = Some (o1, calls2)
    ∧ calls = calls1 ++ calls2 ++ calls3.
Proof.
  unfold Run. destruct (start σ0 w) as [[st0|w0 err0] calls0].
  - destruct (loop (pre ++ (σ, e) :: post) st0) as [[o' calls']|] eqn:Hloop; [|done].
    intros [= <- <-].
    destruct (loop_split _ _ _ _ _ _ _ Hloop)
      as (st1 & calls1 & o1 & calls2 & calls3 & Hpre & Hstep & ->).
    exists st1, (calls0 ++ calls1), o1, calls2, calls3.
    rewrite Hpre. by rewrite <-app_assoc.
  - by destruct pre.
Qed.

Lemma Run_dry_run σ0 schedule w st calls :
  clientConn w = None → client w = None →
  Run σ0 schedule w = Some (Running st, calls) →
  NoPublish (Core (config (self st))) = true →
  clientConn (self st) = None ∧ client (self st) = None.
Proof.
  intros Hconn Hclient. unfold Run.
  destruct (start σ0 w) as [[st0|w0 err0] calls0] eqn:Hstart.
  - destruct (loop schedule st0) as [[o calls1]|] eqn:Hloop; [|done].
    intros [= -> <-].
    apply (loop_dry_run _ _ _ _ (start_dry_run _ _ _ _ Hconn Hclient Hstart) Hloop).
  - by destruct schedule.
Qed.

(** Membership of a [Report] in a list of calls of another kind. *)
Ltac no_report Hin :=
  simpl in Hin;
  repeat match type of Hin with
         | _ ∈ _ ++ _ => apply elem_of_app in Hin as [Hin|Hin]
         | _ ∈ _ :: _ => apply elem_of_cons in Hin as [Hin|Hin]; [discriminate Hin|]
         | _ ∈ match ?c with _ => _ end => destruct c
         | _ ∈ [] => apply elem_of_nil in Hin
         end.

Lemma connect_no_report σ w to req : Report to req ∉ (connect σ w).2.
Proof.
  unfold connect. intros Hin.
  destruct (NoPublish (Core (config w))); [by no_report Hin|].
  destruct (clientConn w); [by no_report Hin|].
  destruct (dialOptions σ (args w)) as [dialOpts|]; [|by no_report Hin].
  destruct (DialContext σ (Server (args w)) dialOpts); by no_report Hin.
Qed.

Lemma start_no_report σ w to req : Report to req ∉ (start σ w).2.
Proof.
  unfold start. intros Hin.
  destruct (addConfigWatch σ (configFilePath w)) as [paths0 [err|]];
    [by no_report Hin|].
  cbv zeta in Hin.
  pose proof (connect_no_report σ
                (configure σ (configFilePath w) (Options (args w)) w) to req)
    as Hconnect.
  destruct (connect σ (configure σ (configFilePath w) (Options (args w)) w))
    as [[w' [err|]] calls']; by apply Hconnect.
Qed.

(** Only a labeling cycle of a worker that holds a client reports, and
    it reports through that client. *)
Lemma step_report σ e st o calls to req :
  step σ e st = Some (o, calls) →
  Report to req ∈ calls →
  e = LabelTimer ∧ client (self st) = Some to.
Proof.
  destruct e as [|name|e|]; simpl.
  - destruct (labelTrigger st); [|done]. unfold onLabelTimer, leave.
    unfold advertiseFeatureLabels.
    destruct (client (self st)) as [cl|].
    + assert (∀ calls0 : list Call,
                Report to req ∈ Report cl
                  {| Req_Labels := createFeatureLabels (host σ) (sources (self st))
                                     (labelWhiteList (self st));
                     NfdVersion := version_Get; NodeName := nodeName |} :: calls0 →
                (Report to req ∈ calls0 → False) →
                LabelTimer = LabelTimer ∧ Some cl = Some to) as Hhead.
      { intros calls0 [[= -> _]|Hin]%elem_of_cons Hrest; [done|].
        by destruct (Hrest Hin). }
      destruct (SetLabels σ cl _) as [err|];
        [|destruct (Oneshot (args (self st))); [|case_decide]];
        intros [= <- <-] Hin; apply (Hhead _ Hin); intros Hin'; by no_report Hin'.
    + destruct (Oneshot (args (self st))); [|case_decide];
        intros [= <- <-] Hin; by no_report Hin.
  - unfold onWatchEvent, leave. case_decide;
      [destruct (addConfigWatch σ (configFilePath (self st))) as [paths' [err|]]|];
      intros [= <- <-] Hin; by no_report Hin.
  - intros [= <- <-] Hin. by no_report Hin.
  - destruct (configTrigger st); [|done]. unfold onConfigTimer, leave. cbv zeta.
    remember (configure σ (configFilePath (self st)) (Options (args (self st)))
                (self st)) as w eqn:Hw.
    destruct (NoPublish (Core (config w))).
    { intros [= <- <-] Hin. by no_report Hin. }
    destruct (clientConn w).
    { intros [= <- <-] Hin. by no_report Hin. }
    pose proof (connect_no_report σ w to req) as Hconnect.
    destruct (connect σ w) as [[w' [err|]] calls']; intros [= <- <-] Hin.
    + apply elem_of_app in Hin as [Hin|Hin];
        [by destruct (Hconnect Hin)|by no_report Hin].
    + by destruct (Hconnect Hin).
Qed.

(** A reconfiguration that leaves dry-run set has done nothing to the
    network but close the connection the worker had. *)
Lemma step_teardown σ st st' calls :
  step σ ConfigTimer st = Some (Running st', calls) →
  NoPublish (Core (config (self st'))) = true →
  clientConn (self st') = None ∧ client (self st') = None
  ∧ calls = match clientConn (self st) with
            | Some conn => [Close conn]
            | None => []
            end.
Proof.
  simpl. destruct (configTrigger st); [|done]. unfold onConfigTimer, leave.
  cbv zeta.
  remember (configure σ (configFilePath (self st)) (Options (args (self st)))
              (self st)) as w eqn:Hw.
  assert (clientConn w = clientConn (self st)) as Hsame by (by subst w).
  destruct (NoPublish (Core (config w))) eqn:Hdry.
  - intros [= <- <-] _. unfold disconnect. simpl. by rewrite Hsame.
  - pose proof (connect_config σ w) as Hcfg.
    destruct (clientConn w).
    + intros [= <- <-]. simpl. by rewrite Hdry.
    + destruct (connect σ w) as [[w' [err|]] calls']; [done|].
      intros [= <- <-]. simpl in *. by rewrite Hcfg, Hdry.
Qed.

(** C7.  Take any run of a worker that starts without a connection.
    Nothing is reported before the loop.  Every event of the schedule is
    an iteration taken from a state the run has reached, and the calls of
    the run are those made before it, those of the iteration and those
    made after it.  In such a state, dry-run set in the configuration
    means that the worker holds no connection and no client.  Whatever
    the event, the iteration reports only if it is a labeling cycle, the
    configuration does not set dry-run and the worker holds the client
    reported through; so no iteration taken with dry-run set reports, and
    no reconfiguration does.  And a reconfiguration that leaves dry-run
    set leaves the worker without connection and client, its only call
    being the close of the connection the worker had.  The state a
    running loop is left in satisfies the same. *)
Theorem dry_run_never_reports σ0 schedule w o calls :
  clientConn w = None → client w = None →
  Run σ0 schedule w = Some (o, calls) →
  (∀ to req, Report to req ∉ (start σ0 w).2)
  ∧ (∀ pre σ e post,
       schedule = pre ++ (σ, e) :: post →
       ∃ st calls1 o1 calls2 calls3,
         Run σ0 pre w = Some (Running st, calls1)
         ∧ step σ e st = Some (o1, calls2)
         ∧ calls = calls1 ++ calls2 ++ calls3
         ∧ (NoPublish (Core (config (self st))) = true →
            clientConn (self st) = None ∧ client (self st) = None
            ∧ ∀ to req, Report to req ∉ calls2)
         ∧ (∀ to req, Report to req ∈ calls2 →
              e = LabelTimer
              ∧ NoPublish (Core (config (self st))) = false
              ∧ client (self st) = Some to)
         ∧ (∀ st', e = ConfigTimer → o1 = Running st' →
              NoPublish (Core (config (self st'))) = true →
              clientConn (self st') = None ∧ client (self st') = None
              ∧ calls2 = match clientConn (self st) with
                         | Some conn => [Close conn]
                         | None => []
                         end))
  ∧ (∀ st, o = Running st →
       NoPublish (Core (config (self st))) = true →
       clientConn (self st) = None ∧ client (self st) = None).
Proof.
  intros Hconn Hclient HRun. split; [|split].
  - intros to req. apply start_no_report.
  - intros pre σ e post ->.
    destruct (Run_split _ _ _ _ _ _ _ _ HRun)
      as (st & calls1 & o1 & calls2 & calls3 & Hpre & Hstep & ->).
    exists st, calls1, o1, calls2, calls3.
    pose proof (Run_dry_run _ _ _ _ _ Hconn Hclient Hpre) as Hinv.
    split; [done|]. split; [done|]. split; [done|]. split; [|split].
    + intros Hdry. destruct (Hinv Hdry) as [Hc Hcl]. split; [done|]. split; [done|].
      intros to req Hin.
      destruct (step_report _ _ _ _ _ _ _ Hstep Hin) as [_ Hto]. congruence.
    + intros to req Hin.
      destruct (step_report _ _ _ _ _ _ _ Hstep Hin) as [-> Hto].
      split; [done|]. split; [|done].
      destruct (NoPublish (Core (config (self st)))) eqn:Hdry; [|done].
      destruct (Hinv eq_refl) as [_ Hcl]. congruence.
    + intros st' -> -> Hdry. by apply (step_teardown σ st).
  - intros st ->. by apply (Run_dry_run σ0 schedule w st calls).
Qed.

(** Without a reconfiguration an unarmed label timer stays unarmed. *)
Lemma loop_label_timer_unarmed schedule st st' calls :
  Forall (λ scheduled, scheduled.2 ≠ ConfigTimer) schedule →
  labelTrigger st = None →
  loop schedule st = Some (Running st', calls) →
  labelTrigger st' = None.
Proof.
  revert st calls. induction schedule as [|[σ e] rest IH];
    intros st calls Hsched Hnone; simpl.
  { by intros [= <- <-]. }
  apply Forall_cons in Hsched as [He Hrest]. simpl in He.
  destruct (step σ e st) as [[[st1|w err] calls1]|] eqn:Hstep; [| |done].
  - destruct (loop rest st1) as [[o calls2]|] eqn:Hloop; [|done].
    intros [= -> <-]. apply (IH st1 calls2 Hrest); [|done].
    destruct e as [|name|err|]; simpl in Hstep.
    + by rewrite Hnone in Hstep.
    + unfold onWatchEvent, leave in Hstep. case_decide.
      * destruct (addConfigWatch σ (configFilePath (self st)))
          as [paths' [err|]]; [done|]. by injection Hstep as <- <-.
      * by injection Hstep as <- <-.
    + by injection Hstep as <- <-.
    + done.
  - by destruct rest.
Qed.

(** C9.  When the label timer fires in a worker that is not one-shot,
    the cycle ends [Run] exactly when the worker holds a client and the
    report through it fails: [Run] then returns the report's error after
    disconnecting.  Otherwise (no client, or the report succeeds) the
    loop goes on with the same worker, having made no call but the
    report; with a positive sleep interval the label timer is armed with
    exactly that interval, while with an interval of zero (or less) it is
    left unarmed and stays so until a reconfiguration. *)
Theorem label_timer_rearmed σ st d labelReq :
  labelTrigger st = Some d →
  Oneshot (args (self st)) = false →
  labelReq = {| Req_Labels := createFeatureLabels (host σ) (sources (self st))
                                (labelWhiteList (self st));
                NfdVersion := version_Get; NodeName := nodeName |} →
  (∀ cl e,
     client (self st) = Some cl →
     SetLabels σ cl labelReq = Some e →
     step σ LabelTimer st
     = Some (Returned (disconnect (self st)).1
               (Some ("failed to advertise labels: " +:+ e)),
             Report cl labelReq :: (disconnect (self st)).2))
  ∧ (client (self st) = None
     ∨ (∃ cl, client (self st) = Some cl ∧ SetLabels σ cl labelReq = None) →
     ∃ st',
       step σ LabelTimer st
       = Some (Running st',
               match client (self st) with
               | Some cl => [Report cl labelReq]
               | None => []
               end)
       ∧ self st' = self st
       ∧ paths st' = paths st
       ∧ configTrigger st' = configTrigger st
       ∧ (0 < SleepInterval (args (self st)) →
          labelTrigger st' = Some (SleepInterval (args (self st))))
       ∧ (SleepInterval (args (self st)) ≤ 0 →
          labelTrigger st' = None
          ∧ ∀ schedule st'' calls,
              Forall (λ scheduled, scheduled.2 ≠ ConfigTimer) schedule →
              loop schedule st' = Some (Running st'', calls) →
              labelTrigger st'' = None)).
Proof.
  intros Harmed Hloop ->. simpl. rewrite Harmed.
  unfold onLabelTimer, leave, advertiseFeatureLabels. cbv zeta. rewrite Hloop.
  split.
  - by intros cl e -> ->.
  - intros Hok.
    assert (∀ calls0 : list Call,
              ∃ st',
                Some (if decide (0 < SleepInterval (args (self st)))
                      then (Running {| self := self st; paths := paths st;
                                       labelTrigger :=
                                         Some (SleepInterval (args (self st)));
                                       configTrigger := configTrigger st |},
                            calls0)
                      else (Running {| self := self st; paths := paths st;
                                       labelTrigger := None;
                                       configTrigger := configTrigger st |},
                            calls0))
                = Some (Running st', calls0)
                ∧ self st' = self st
                ∧ paths st' = paths st
                ∧ configTrigger st' = configTrigger st
                ∧ (0 < SleepInterval (args (self st)) →
                   labelTrigger st' = Some (SleepInterval (args (self st))))
                ∧ (SleepInterval (args (self st)) ≤ 0 →
                   labelTrigger st' = None
                   ∧ ∀ schedule st'' calls,
                       Forall (λ scheduled, scheduled.2 ≠ ConfigTimer) schedule →
                       loop schedule st' = Some (Running st'', calls) →
                       labelTrigger st'' = None)) as Hrearm.
    { intros calls0. case_decide as Hpos; eexists; (split; [done|]); simpl.
      - split; [done|]. split; [done|]. split; [done|]. split; [done|]. lia.
      - split; [done|]. split; [done|]. split; [done|]. split; [lia|].
        intros _. split; [done|].
        intros schedule st'' calls Hsched. by apply loop_label_timer_unarmed. }
    destruct Hok as [->|(cl & -> & ->)]; apply Hrearm.
Qed.

(** ** Construction *)

(** The worker keeps the arguments as they were passed: the copy is
    taken before the sleep interval is looked at. *)
Lemma NewNfdWorker_args instance a :
  args (NewNfdWorker instance a).1.1 = a.
Proof.
  unfold NewNfdWorker. cbv zeta.
  destruct (decide (0 < SleepInterval a ∧ SleepInterval a < Second));
    cbv beta iota; repeat (case_decide; [done|]);
    (case_decide; [|destruct (enabledSources _ _)]);
    by destruct (Compile _).
Qed.

Lemma NewNfdWorker_disconnected instance a :
  clientConn (NewNfdWorker instance a).1.1 = None
  ∧ client (NewNfdWorker instance a).1.1 = None.
Proof.
  unfold NewNfdWorker. cbv zeta.
  destruct (decide (0 < SleepInterval a ∧ SleepInterval a < Second));
    cbv beta iota; repeat (case_decide; [done|]);
    (case_decide; [|destruct (enabledSources _ _)]);
    by destruct (Compile _).
Qed.

End AgentLoop.

Lemma dry_run_never_reports_witness :
  ∃ st' calls2,
    step Example.dry_run_configured ConfigTimer Example.changed
    = Some (Running st', calls2)
    ∧ clientConn (self st') = None ∧ client (self st') = None
    ∧ calls2 = [Close (ext := Example.collaborators) 7%nat].
Proof.
  edestruct (dry_run_never_reports (ext := Example.collaborators)
               Example.connected Example.reconfiguration
               (Example.worker false 0 None)) as (_ & Hevents & _);
    [reflexivity|reflexivity|reflexivity|].
  destruct (Hevents [(Example.connected, LabelTimer);
                     (Example.connected, WatchEvent EmptyString)]
              Example.dry_run_configured ConfigTimer [] eq_refl)
    as (st & calls1 & o1 & calls2 & calls3 & Hpre & Hstep & _ & _ & _ & Hteardown).
  epose proof (eq_refl
               : Run Example.connected
                   [(Example.connected, LabelTimer);
                    (Example.connected, WatchEvent EmptyString)]
                   (Example.worker false 0 None)
                 = Some (Running Example.changed, _)) as Hchanged.
  rewrite Hchanged in Hpre. injection Hpre as <- _.
  epose proof (eq_refl
               : step Example.dry_run_configured ConfigTimer Example.changed
                 = Some (Running _, _)) as Hfired.
  rewrite Hfired in Hstep. injection Hstep as <- <-.
  eexists _, _. split; [exact Hfired|].
  exact (Hteardown _ eq_refl eq_refl eq_refl).
Defined.

Lemma label_timer_rearmed_witness :
  Run Example.connected [] (Example.worker false (60 * Second) None)
  = Some (Running Example.entered, [Dial "nfd-master:8080" [WithBlock; WithInsecure]])
  ∧ ∃ st',
      step Example.connected LabelTimer Example.entered
      = Some (Running st',
              [Report (NewLabelerClient (ext := Example.collaborators) 7%nat)
                 {| Req_Labels :=
                      createFeatureLabels (ext := Example.collaborators)
                        (host Example.connected) (sources (self Example.entered))
                        (labelWhiteList (self Example.entered));
                    NfdVersion := @version_Get Example.collaborators;
                    NodeName := @nodeName Example.collaborators |}])
      ∧ labelTrigger st' = Some 60000000000.
Proof.
  split; [reflexivity|].
  destruct (label_timer_rearmed (ext := Example.collaborators)
              Example.connected Example.entered 0 _ eq_refl eq_refl eq_refl)
    as [_ Hgoes_on].
  destruct Hgoes_on as (st' & Hstep & _ & _ & _ & Hpositive & _).
  - right. eexists. split; reflexivity.
  - exists st'. split; [exact Hstep|]. apply Hpositive. reflexivity.
Defined.

(** C10.  [NewNfdWorker] does not replace a sleep interval between zero
    and one second, although its warning says so: asked for half a second
    it warns that it forces one second and returns, without error, a
    worker that still holds half a second, which is the delay [Run] then
    arms the label timer with. *)
Theorem short_sleep_interval_not_forced :
  (NewNfdWorker Example.registry (Example.arguments false 500000000 None)).2
  = [TooShortSleepInterval 500000000]
  ∧ (NewNfdWorker Example.registry (Example.arguments false 500000000 None)).1.2
    = None
  ∧ SleepInterval (args (Example.worker false 500000000 None)) = 500000000
  ∧ ∃ st calls,
      Run Example.connected [(Example.connected, LabelTimer)]
        (Example.worker false 500000000 None)
      = Some (Running st, calls)
      ∧ labelTrigger st = Some 500000000.
Proof.
  split; [reflexivity|]. split; [reflexivity|]. split; [reflexivity|].
  eexists _, _. split; reflexivity.
Qed.
